(** * go-gateway: the service registry and the request director

    A shallow embedding of [main.go]: the [cache] implementation of the
    [Discovery] interface ([GetService], [CreateService], [CreateAPI]),
    the method [APIGateway.director] that the reverse proxy runs on every
    inbound request, the closure kept in [directorFunc], and the two
    administration handlers, which take the JSON decoder as a parameter.

    Conventions of the embedding.
    - A Go [string] is a byte string; here a [string] of 8-bit characters.
    - A Go map is a finite map ([gmap]); a map-typed field may hold the nil
      map, so it is an [option]: reading the nil map finds nothing, writing
      it faults.
    - A Go pointer that may be nil ([*Service], [*API]) is an [option].
    - A runtime fault (Go [panic]) is an explicit outcome, distinct from a
      returned [error].
    - The registry is threaded explicitly: an operation takes the [cache]
      and gives the [cache] after the call back.  The mutex [mu] guards
      every access to [store] and has no sequential content; the operations
      below are the bodies of the critical sections, run one at a time.
    - Every [*Service] handed to [CreateService] is taken to own its
      [APIs] map (as the HTTP handler does, which decodes each body into a
      fresh variable), so a stored service is a value of the store. *)

From Stdlib Require Import Ascii String.
From stdpp Require Import base option strings list gmap fin_maps.

Local Open Scope string_scope.

(** ** Data model *)

(** [type API struct] *)
Record API := mkAPI {
  API_Name : string;        (* api name *)
  API_Service : string;     (* service name *)
  API_Protocol : string;    (* http or https *)
  API_HTTPMethod : string;  (* http method *)
  API_Host : string;        (* ip:port or domain *)
  API_Path : string         (* request path *)
}.

(** [type Service struct]; [APIs] is [map[string]*API]: [None] is the nil
    map, and an entry may hold the nil pointer. *)
Record Service := mkService {
  Service_Name : string;
  Service_APIs : option (gmap string (option API))
}.

(** [type cache struct] ([mu] left out, see above). *)
Record cache := mkCache {
  store : gmap string Service
}.

(** The errors the registry builds with [fmt.Errorf], one constructor per
    call site, with the values that are formatted into the message. *)
Inductive error :=
| ErrServiceNotExist (serviceName : string)           (* GetService *)
| ErrServiceEmpty                                     (* CreateService *)
| ErrServiceExist (serviceName : string)              (* CreateService *)
| ErrAPIEmpty                                         (* CreateAPI *)
| ErrServiceNameEmpty                                 (* CreateAPI *)
| ErrAPIExist (serviceName apiName : string).         (* CreateAPI *)

(** [err.Error()]: the text of each message ([%v] of a string is the
    string). *)
Definition Error (e : error) : string :=
  match e with
  | ErrServiceNotExist n => "service: " +:+ n +:+ " not exist"
  | ErrServiceEmpty => "service can not be empty"
  | ErrServiceExist n => "service: " +:+ n +:+ " already exist"
  | ErrAPIEmpty => "api can not be empty"
  | ErrServiceNameEmpty => "service name can not be empty"
  | ErrAPIExist n a => "service: " +:+ n +:+ ", api: " +:+ a +:+ " already exist"
  end.

(** The three kinds of registry error of the design (section 7), and the
    kind of each message. *)
Inductive error_kind := ValidationError | ConflictError | NotFoundError.

Definition kind_of (e : error) : error_kind :=
  match e with
  | ErrServiceNotExist _ => NotFoundError
  | ErrServiceEmpty | ErrAPIEmpty | ErrServiceNameEmpty => ValidationError
  | ErrServiceExist _ | ErrAPIExist _ _ => ConflictError
  end.

(** Runtime faults. *)
Inductive panic :=
| NilPointerDereference      (* field read through a nil pointer *)
| AssignmentToNilMap.        (* "assignment to entry in nil map" *)

(** How a call ends: it returns a value, or it faults. *)
Inductive outcome (A : Type) :=
| Returned (a : A)
| Panicked (p : panic).
Arguments Returned {A} a.
Arguments Panicked {A} p.

(** ** Map access as Go does it *)

(** [v, exist := m[k]] on a map that may be nil: the nil map has no entry. *)
Definition map_get {V} (m : option (gmap string V)) (k : string) : option V :=
  match m with
  | Some entries => entries !! k
  | None => None
  end.

(** [m[k] = v] on a map that may be nil: writing the nil map faults. *)
Definition map_set {V} (m : option (gmap string V)) (k : string) (v : V)
  : outcome (gmap string V) :=
  match m with
  | Some entries => Returned (<[k := v]> entries)
  | None => Panicked AssignmentToNilMap
  end.

(** ** The registry *)

(** [NewCacheDiscovery] *)
Definition NewCacheDiscovery : cache := mkCache ∅.

(** [func (c *cache) GetService(serviceName string)], which returns a
    [*Service] and an [error]: the service, or the error. *)
Definition GetService (serviceName : string) (c : cache) : Service + error :=
  match store c !! serviceName with
  | None => inr (ErrServiceNotExist serviceName)
  | Some service => inl service
  end.

(** [func (c *cache) CreateService(service *Service) error]; the returned
    [error] is [None] for Go's [nil]. *)
Definition CreateService (service : option Service) (c : cache)
  : option error * cache :=
  match service with
  | None => (Some ErrServiceEmpty, c)
  | Some service =>
    if decide (Service_Name service = "") then (Some ErrServiceEmpty, c)
    else
      match store c !! Service_Name service with
      | Some _ => (Some (ErrServiceExist (Service_Name service)), c)
      | None => (None, mkCache (<[Service_Name service := service]> (store c)))
      end
  end.

(** [func (c *cache) CreateAPI(api *API) error].  On a miss in [store] the
    looked-up [service] is the nil pointer, and the message of that branch
    is built from [service.Name]: the read faults before [fmt.Errorf] is
    called. *)
Definition CreateAPI (api : option API) (c : cache)
  : outcome (option error) * cache :=
  match api with
  | None => (Returned (Some ErrAPIEmpty), c)
  | Some api =>
    if decide (API_Name api = "") then (Returned (Some ErrAPIEmpty), c)
    else
      let serviceName := API_Service api in
      if decide (serviceName = "") then (Returned (Some ErrServiceNameEmpty), c)
      else
        match store c !! serviceName with
        | None => (Panicked NilPointerDereference, c)
        | Some service =>
          match map_get (Service_APIs service) (API_Name api) with
          | Some _ => (Returned (Some (ErrAPIExist serviceName (API_Name api))), c)
          | None =>
            match map_set (Service_APIs service) (API_Name api) (Some api) with
            | Panicked p => (Panicked p, c)
            | Returned apis =>
              (Returned None,
               mkCache (<[serviceName :=
                            mkService (Service_Name service) (Some apis)]>
                          (store c)))
            end
          end
        end
  end.

(** ** The request director *)

(** The fields of [url.URL] and [http.Request] that the director reads or
    writes, with the query string, the headers and the body, which it
    forwards. *)
Record URL := mkURL {
  URL_Scheme : string;
  URL_Host : string;
  URL_Path : string;
  URL_RawQuery : string
}.

Record Request := mkRequest {
  Request_Method : string;
  Request_URL : URL;
  Request_Header : list (string * list string);
  Request_Body : string
}.

(** [type APIGateway struct]: the registry it consults. *)
Record APIGateway := mkAPIGateway {
  discovery : cache
}.

(** [NewAPIGateWay] *)
Definition NewAPIGateWay : APIGateway := mkAPIGateway NewCacheDiscovery.

(** [strings.Split(s, sep)] for a separator of one byte: the pieces of [s]
    between the occurrences of [sep], one more than there are occurrences
    (so one empty piece for the empty string). *)
Fixpoint Split (s : string) (sep : ascii) : list string :=
  match s with
  | EmptyString => [""]
  | String ch rest =>
    if decide (ch = sep) then "" :: Split rest sep
    else
      match Split rest sep with
      | piece :: pieces => String ch piece :: pieces
      | [] => [String ch ""]
      end
  end.

Definition newline : string := String "010"%char "".

(** The lines the director hands to [log.Printf], in order. *)
Definition log := list string.

(** The three assignments that end the director:
    [req.URL.Scheme = api.Protocol], [req.URL.Host = api.Host],
    [req.URL.Path = "/" + api.Path]. *)
Definition set_backend (api : API) (req : Request) : Request :=
  mkRequest (Request_Method req)
            (mkURL (API_Protocol api) (API_Host api) ("/" +:+ API_Path api)
                   (URL_RawQuery (Request_URL req)))
            (Request_Header req)
            (Request_Body req).

(** [func (gateway *APIGateway) director(req *http.Request)]: the request
    after the call (the director updates it in place) or the fault, with
    the lines logged on the way. *)
Definition director (gateway : APIGateway) (req : Request)
  : log * outcome Request :=
  let reqPath := URL_Path (Request_URL req) in
  if decide (reqPath = "") then ([], Returned req)
  else
    match Split reqPath "/"%char with
    | [_; serviceName; apiName] =>          (* len(pathArray) == 3 *)
      let l1 := "request service name: " +:+ serviceName +:+
                ", api name: " +:+ apiName in
      match GetService serviceName (discovery gateway) with
      | inr err =>
        ([l1; "use discovery to get service failed: " +:+ Error err +:+ newline],
         Returned req)
      | inl service =>
        match map_get (Service_APIs service) apiName with
        | None =>
          ([l1; "service: " +:+ serviceName +:+ " not has api: " +:+ apiName
                  +:+ newline],
           Returned req)
        | Some None =>                      (* api.HTTPMethod through nil *)
          ([l1], Panicked NilPointerDereference)
        | Some (Some api) =>
          let l2 :=
            if decide (Request_Method req ≠ API_HTTPMethod api)
            then ["method: " +:+ Request_Method req +:+
                  " unsupported, should be: " +:+ API_HTTPMethod api]
            else [] in
          (l1 :: l2, Returned (set_backend api req))
        end
      end
    | _ => ([], Returned req)               (* len(pathArray) != 3 *)
    end.


(** ** Histories of the registry *)

(** A call of one of the two mutating operations, with its argument. *)
Inductive call :=
| CallCreateService (service : option Service)
| CallCreateAPI (api : option API).

(** The registry after a call, whatever the call answered.  A fault ends
    the request that made the call, not the process: the deferred
    [Unlock] has run, and the registry lives on as the call left it. *)
Definition run_call (k : call) (c : cache) : cache :=
  match k with
  | CallCreateService service => (CreateService service c).2
  | CallCreateAPI api => (CreateAPI api c).2
  end.

Definition run_calls (ks : list call) (c : cache) : cache :=
  foldl (fun c k => run_call k c) c ks.

(** The registries that calls of [CreateService] and [CreateAPI] build from
    the empty one. *)
Inductive reachable : cache -> Prop :=
| reachable_new : reachable NewCacheDiscovery
| reachable_call k c : reachable c -> reachable (run_call k c).

(** Every service is stored under its own name, and no name is empty. *)
Definition names_agree (c : cache) : Prop :=
  forall k svc, store c !! k = Some svc -> Service_Name svc = k /\ k <> "".

(** The names of the stored services, one per entry of [store]. *)
Definition service_names (c : cache) : list string :=
  (fun entry => Service_Name entry.2) <$> map_to_list (store c).

(** The keys of a service's API mapping, one per entry (none for the nil
    map). *)
Definition api_names (svc : Service) : list string :=
  match Service_APIs svc with
  | Some apis => (map_to_list apis).*1
  | None => []
  end.

(** [CreateService] on each service of a list in turn: the answers, in
    order, and the registry at the end. *)
Fixpoint create_services (services : list Service) (c : cache)
  : list (option error) * cache :=
  match services with
  | [] => ([], c)
  | service :: rest =>
    let (err, c1) := CreateService (Some service) c in
    let (errs, c2) := create_services rest c1 in
    (err :: errs, c2)
  end.

(** ** Paths *)

(** Whether the byte [ch] occurs in [s]. *)
Fixpoint contains_byte (ch : ascii) (s : string) : bool :=
  match s with
  | EmptyString => false
  | String c rest => if decide (c = ch) then true else contains_byte ch rest
  end.

(** [strings.Count(s, sep)] for a separator of one byte. *)
Fixpoint count_byte (ch : ascii) (s : string) : nat :=
  match s with
  | EmptyString => 0
  | String c rest => (if decide (c = ch) then 1 else 0) + count_byte ch rest
  end.

(** [strings.Join(pieces, sep)] for a separator of one byte. *)
Fixpoint Join (pieces : list string) (sep : ascii) : string :=
  match pieces with
  | [] => ""
  | [piece] => piece
  | piece :: rest => piece +:+ String sep (Join rest sep)
  end.

(** A path segment: a string without the separator. *)
Definition segment (s : string) : Prop := contains_byte "/" s = false.

(** The path [/{service}/{api}]; with [pre], what stands before the
    separator that leads the service name (nothing, in a path that starts
    with the separator). *)
Definition route_path (pre serviceName apiName : string) : string :=
  pre +:+ "/" +:+ serviceName +:+ "/" +:+ apiName.

(** The shape of path the design asks for: exactly two non-empty segments
    after the leading separator. *)
Definition two_nonempty_segments (path : string) : Prop :=
  exists s a, segment s /\ segment a /\ s <> "" /\ a <> "" /\
              path = route_path "" s a.

(** The three ways in which a path fails to resolve against a registry: it
    has not exactly two separators (so not exactly three pieces, the first
    of which precedes the leading separator), or its service segment names
    no registered service, or its API segment names no entry of the API
    mapping of that service. *)
Inductive resolution_failure (c : cache) (path : string) : Prop :=
| wrong_segment_count :
    count_byte "/" path <> 2 -> resolution_failure c path
| unknown_service pre s a :
    segment pre -> segment s -> segment a ->
    path = route_path pre s a ->
    store c !! s = None -> resolution_failure c path
| unknown_api pre s a svc :
    segment pre -> segment s -> segment a ->
    path = route_path pre s a ->
    store c !! s = Some svc ->
    map_get (Service_APIs svc) a = None -> resolution_failure c path.

(** What the design asks of the request [out] that the director leaves
    behind for a resolved [api]: scheme, host and path are the backend's,
    the path being the declared one after a separator; method, query
    string, headers and body are those of the inbound request [req]. *)
Definition rewritten_for (api : API) (req out : Request) : Prop :=
  URL_Scheme (Request_URL out) = API_Protocol api /\
  URL_Host (Request_URL out) = API_Host api /\
  URL_Path (Request_URL out) = "/" +:+ API_Path api /\
  URL_RawQuery (Request_URL out) = URL_RawQuery (Request_URL req) /\
  Request_Method out = Request_Method req /\
  Request_Header out = Request_Header req /\
  Request_Body out = Request_Body req.

(** ** A running example: the registration of the README *)

Definition createUser : API :=
  mkAPI "createUser" "userService" "http" "post" "198.15.26.10:8080"
        "user/createUser".

Definition userService : Service := mkService "userService" (Some ∅).

(** [userService] as decoded from a body without the [apis] member: the
    mapping is nil. *)
Definition bareService : Service := mkService "userService" None.

(** An API record with an empty name under [userService]. *)
Definition unnamedAPI : API :=
  mkAPI "" "userService" "http" "get" "198.15.26.10:8080" "user/list".

(** [userService] registered with an initial mapping whose one entry is
    [unnamedAPI], under its (empty) name. *)
Definition emptyKeyService : Service :=
  mkService "userService" (Some {[ "" := Some unnamedAPI ]}).

Definition example_registry : cache :=
  run_calls [CallCreateService (Some userService);
             CallCreateAPI (Some createUser)] NewCacheDiscovery.

Definition bare_registry : cache :=
  run_calls [CallCreateService (Some bareService)] NewCacheDiscovery.

Definition empty_key_registry : cache :=
  run_calls [CallCreateService (Some emptyKeyService)] NewCacheDiscovery.

Definition example_request (method path : string) : Request :=
  mkRequest method (mkURL "" "" path "debug=1")
            [("Content-Type", ["application/json"])] "{}".

(** ** The administration handlers *)

(** [http.MethodPost] *)
Definition MethodPost : string := "POST".

(** [func (gateway *APIGateway) CreateService(w http.ResponseWriter,
    r *http.Request)].  [Unmarshal] stands for [json.Unmarshal(data,
    &service)] on the body that was read: the decoded service, or the text
    of the decoding error.  The result is what the handler writes to [w]
    and the gateway after the request.  The handler hands the address of
    its local [service] to the registry, never nil. *)
Definition APIGateway_CreateService
    (Unmarshal : string -> Service + string)
    (gateway : APIGateway) (r : Request) : string * APIGateway :=
  if decide (Request_Method r <> MethodPost)
  then ("http method " +:+ Request_Method r +:+ " not support", gateway)
  else
    match Unmarshal (Request_Body r) with
    | inr err => ("unmarshal request body failed: " +:+ err, gateway)
    | inl service =>
      match CreateService (Some service) (discovery gateway) with
      | (Some err, c) =>
        ("create service failed: " +:+ Error err, mkAPIGateway c)
      | (None, c) => ("success", mkAPIGateway c)
      end
    end.

(** [func (gateway *APIGateway) CreateAPI(w http.ResponseWriter,
    r *http.Request)], in the same way; a fault of the registry call ends
    the handler before it writes anything. *)
Definition APIGateway_CreateAPI
    (Unmarshal : string -> API + string)
    (gateway : APIGateway) (r : Request) : outcome string * APIGateway :=
  if decide (Request_Method r <> MethodPost)
  then (Returned ("http method " +:+ Request_Method r +:+ " not support"),
        gateway)
  else
    match Unmarshal (Request_Body r) with
    | inr err => (Returned ("unmarshal request body failed: " +:+ err), gateway)
    | inl api =>
      match CreateAPI (Some api) (discovery gateway) with
      | (Panicked p, c) => (Panicked p, mkAPIGateway c)
      | (Returned (Some err), c) =>
        (Returned ("create api failed: " +:+ Error err), mkAPIGateway c)
      | (Returned None, c) => (Returned "success", mkAPIGateway c)
      end
    end.

(** ** Further notions for the properties *)

(** No entry of the API mapping of [svc] holds the nil pointer. *)
Definition no_nil_entries (svc : Service) : Prop :=
  forall a, map_get (Service_APIs svc) a <> Some None.

(** A call that submits no service with a nil entry in its mapping. *)
Definition submits_no_nil_entry (k : call) : Prop :=
  match k with
  | CallCreateService (Some service) => no_nil_entries service
  | _ => True
  end.

(** The entry for API [a] of service [s], as the director looks it up:
    [GetService] and then the mapping of the service found. *)
Definition lookup_api (c : cache) (s a : string) : option (option API) :=
  match GetService s c with
  | inl service => map_get (Service_APIs service) a
  | inr _ => None
  end.

(** ** Bodies for the examples *)

(** A stand-in for the JSON decoder, fixed on three bodies: the empty
    object decodes to the zero [Service]; two bodies, named here by a
    label, decode to [userService] and to [bareService]; every other body
    is refused. *)
Definition example_Unmarshal_Service (data : string) : Service + string :=
  if decide (data = "{}") then inl (mkService "" None)
  else if decide (data = "<userService, apis: {}>") then inl userService
  else if decide (data = "<userService>") then inl bareService
  else inr "unexpected end of JSON input".

(** The same for API bodies: one body decodes to [createUser]. *)
Definition example_Unmarshal_API (data : string) : API + string :=
  if decide (data = "<createUser>") then inl createUser
  else inr "unexpected end of JSON input".

(** Further services for the examples; the last has a separator in its
    name. *)
Definition orderService : Service := mkService "orderService" (Some ∅).
Definition payService : Service := mkService "payService" None.
Definition slashService : Service :=
  mkService "user/Service" (Some {[ "createUser" := Some createUser ]}).

(** * Properties *)

(** ** [Split] *)

Section SplitFacts.
Variable sep : ascii.

Lemma Split_not_nil s : Split s sep <> [].
Proof.
  destruct s as [|ch rest]; simpl; [done|].
  case_decide; [done|]. by destruct (Split rest sep).
Qed.

Lemma Split_length s : length (Split s sep) = S (count_byte sep s).
Proof.
  induction s as [|ch rest IH]; simpl; [done|].
  case_decide; simpl; [by rewrite IH|].
  destruct (Split rest sep); simpl in *; lia.
Qed.

Lemma Split_no_sep s : contains_byte sep s = false -> Split s sep = [s].
Proof.
  induction s as [|ch rest IH]; simpl; [done|].
  case_decide; [done|]. intros Hfree. by rewrite IH.
Qed.

Lemma Split_app s t :
  contains_byte sep s = false ->
  Split (s +:+ String sep t) sep = s :: Split t sep.
Proof.
  induction s as [|ch rest IH]; simpl.
  - intros _. by rewrite decide_True.
  - case_decide; [done|]. intros Hfree. by rewrite IH.
Qed.

Lemma Split_pieces_free s :
  Forall (fun piece => contains_byte sep piece = false) (Split s sep).
Proof.
  induction s as [|ch rest IH]; simpl.
  - by repeat constructor.
  - case_decide.
    + by constructor.
    + destruct (Split rest sep) as [|piece pieces].
      * repeat constructor. simpl. by rewrite decide_False.
      * inversion_clear IH. constructor; [|done].
        simpl. by rewrite decide_False.
Qed.

Lemma Join_Split s : Join (Split s sep) sep = s.
Proof.
  induction s as [|ch rest IH]; simpl; [done|].
  pose proof (Split_not_nil rest) as Hnil.
  case_decide as Hch.
  - subst ch. destruct (Split rest sep) as [|piece pieces]; [done|].
    simpl in *. by rewrite IH.
  - destruct (Split rest sep) as [|piece pieces]; [done|].
    destruct pieces as [|piece' pieces]; simpl in *; by rewrite <- IH.
Qed.

(** A string splits into exactly three pieces exactly when it is three
    separator-free strings with one separator between each two. *)
Lemma Split_three p a b c :
  Split p sep = [a; b; c] <->
  p = a +:+ String sep (b +:+ String sep c) /\
  contains_byte sep a = false /\ contains_byte sep b = false /\
  contains_byte sep c = false.
Proof.
  split.
  - intros Hsplit. pose proof (Split_pieces_free p) as Hfree.
    pose proof (Join_Split p) as Hjoin. rewrite Hsplit in Hfree, Hjoin.
    inversion_clear Hfree as [|?? Ha Hfree'].
    inversion_clear Hfree' as [|?? Hb Hfree''].
    inversion_clear Hfree'' as [|?? Hc _].
    simpl in Hjoin. by rewrite <- Hjoin.
  - intros (-> & Ha & Hb & Hc).
    rewrite Split_app by done. rewrite Split_app by done.
    by rewrite Split_no_sep.
Qed.

Lemma count_byte_app s t :
  count_byte sep (s +:+ t) = count_byte sep s + count_byte sep t.
Proof. induction s as [|ch rest IH]; simpl; [done|]. rewrite IH. lia. Qed.

Lemma count_byte_0 s : count_byte sep s = 0 <-> contains_byte sep s = false.
Proof.
  induction s as [|ch rest IH]; simpl; [done|].
  case_decide; [split; [lia|done]|]. by rewrite <- IH.
Qed.

End SplitFacts.

Lemma Split_route pre s a :
  segment pre -> segment s -> segment a ->
  Split (route_path pre s a) "/" = [pre; s; a].
Proof. intros Hpre Hs Ha. by apply Split_three. Qed.

(** A path with exactly two separators is a route, and only such a path. *)
Lemma count_two_route path :
  count_byte "/" path = 2 <->
  exists pre s a, segment pre /\ segment s /\ segment a /\
                  path = route_path pre s a.
Proof.
  split.
  - intros Hcount. pose proof (Split_length "/" path) as Hlen.
    rewrite Hcount in Hlen.
    destruct (Split path "/") as [|pre [|s [|a [|]]]] eqn:Hsplit; try done.
    apply Split_three in Hsplit as (-> & ? & ? & ?). by exists pre, s, a.
  - intros (pre & s & a & Hpre & Hs & Ha & ->).
    pose proof (Split_length "/" (route_path pre s a)) as Hlen.
    rewrite Split_route in Hlen by done. simpl in Hlen. lia.
Qed.

(** ** The registry: invariants of its histories *)

Lemma names_agree_new : names_agree NewCacheDiscovery.
Proof. intros k svc Hk. simpl in Hk. by rewrite lookup_empty in Hk. Qed.

Lemma CreateService_names_agree service c :
  names_agree c -> names_agree (CreateService service c).2.
Proof.
  intros Hc. unfold CreateService.
  destruct service as [service|]; [|done].
  case_decide as Hname; [done|].
  destruct (store c !! Service_Name service) eqn:Hlook; [done|].
  intros k svc. simpl. rewrite lookup_insert. case_decide as Hk.
  - intros [= <-]. by subst k.
  - apply Hc.
Qed.

Lemma CreateAPI_names_agree api c :
  names_agree c -> names_agree (CreateAPI api c).2.
Proof.
  intros Hc. unfold CreateAPI.
  destruct api as [api|]; [|done].
  case_decide; [done|]. simpl. case_decide as Hsn; [done|].
  destruct (store c !! API_Service api) as [service|] eqn:Hlook; [|done].
  destruct (map_get _ _); [done|].
  destruct (map_set _ _ _) as [apis|]; [|done].
  intros k svc. simpl. rewrite lookup_insert. case_decide as Hk.
  - intros [= <-]. simpl. subst k. split; [|done].
    by apply Hc in Hlook as [? _].
  - apply Hc.
Qed.

Lemma run_call_names_agree k c : names_agree c -> names_agree (run_call k c).
Proof.
  destruct k; [apply CreateService_names_agree | apply CreateAPI_names_agree].
Qed.

Lemma reachable_names_agree c : reachable c -> names_agree c.
Proof.
  induction 1 as [|k c _ IH]; [apply names_agree_new|].
  by apply run_call_names_agree.
Qed.

Lemma reachable_run_calls ks c : reachable c -> reachable (run_calls ks c).
Proof.
  revert c. induction ks as [|k ks IH]; intros c Hc; [done|].
  apply IH. by constructor.
Qed.

Lemma names_agree_NoDup c : names_agree c -> NoDup (service_names c).
Proof.
  intros Hc. unfold service_names.
  replace ((fun entry : string * Service => Service_Name entry.2)
             <$> map_to_list (store c))
    with ((map_to_list (store c)).*1).
  - apply NoDup_fst_map_to_list.
  - apply Forall_fmap_ext, Forall_forall. intros [k svc] Hin.
    apply elem_of_map_to_list in Hin. simpl. by apply Hc in Hin as [-> _].
Qed.

Lemma api_names_NoDup svc : NoDup (api_names svc).
Proof.
  unfold api_names. destruct (Service_APIs svc); [|constructor].
  apply NoDup_fst_map_to_list.
Qed.

(** An entry of an API mapping, once there, stays there with the same
    record through every later call: nothing is replaced or removed. *)
Lemma run_call_keeps_api k c s svc a x :
  store c !! s = Some svc ->
  map_get (Service_APIs svc) a = Some x ->
  exists svc', store (run_call k c) !! s = Some svc' /\
               map_get (Service_APIs svc') a = Some x.
Proof.
  intros Hs Ha. destruct k as [service|api]; simpl.
  - unfold CreateService. destruct service as [service|]; [|by eauto].
    case_decide; [by eauto|].
    destruct (store c !! Service_Name service) eqn:Hlook; [by eauto|].
    exists svc. split; [|done]. simpl. rewrite lookup_insert_ne; [done|].
    intros Heq. congruence.
  - unfold CreateAPI. destruct api as [api|]; [|by eauto].
    case_decide; [by eauto|]. simpl. case_decide; [by eauto|].
    destruct (store c !! API_Service api) as [service|] eqn:Hlook; [|by eauto].
    destruct (map_get (Service_APIs service) (API_Name api)) eqn:Hget;
      [by eauto|].
    destruct (Service_APIs service) as [apis|] eqn:Hapis; simpl; [|by eauto].
    rewrite lookup_insert. case_decide as Hk; [|by eauto].
    subst s. rewrite Hlook in Hs. injection Hs as <-.
    eexists. split; [done|]. simpl. rewrite Hapis in Ha. simpl in Ha, Hget.
    rewrite lookup_insert_ne; [done|]. intros Heq. congruence.
Qed.

Lemma run_calls_keeps_api ks c s svc a x :
  store c !! s = Some svc ->
  map_get (Service_APIs svc) a = Some x ->
  exists svc', store (run_calls ks c) !! s = Some svc' /\
               map_get (Service_APIs svc') a = Some x.
Proof.
  revert c svc. induction ks as [|k ks IH]; intros c svc Hs Ha; [by eauto|].
  destruct (run_call_keeps_api k c s svc a x Hs Ha) as (svc' & Hs' & Ha').
  by apply (IH _ svc').
Qed.

(** What a successful [CreateAPI] did. *)
Lemma CreateAPI_success api c c' :
  CreateAPI (Some api) c = (Returned None, c') ->
  exists svc apis,
    store c !! API_Service api = Some svc /\
    Service_APIs svc = Some apis /\
    apis !! API_Name api = None /\
    c' = mkCache (<[API_Service api :=
                      mkService (Service_Name svc)
                                (Some (<[API_Name api := Some api]> apis))]>
                    (store c)).
Proof.
  unfold CreateAPI. case_decide; [done|]. simpl. case_decide; [done|].
  destruct (store c !! API_Service api) as [svc|]; [|done].
  destruct (Service_APIs svc) as [apis|] eqn:Hapis; simpl.
  - destruct (apis !! API_Name api) eqn:Hget; [done|].
    intros [= <-]. by exists svc, apis.
  - done.
Qed.

(** [CreateAPI] for a service that is not in the store: the message of the
    error is never built, the call faults on [service.Name]. *)
Lemma CreateAPI_unknown_service api c :
  API_Name api <> "" -> API_Service api <> "" ->
  store c !! API_Service api = None ->
  CreateAPI (Some api) c = (Panicked NilPointerDereference, c).
Proof.
  intros Hname Hservice Hlook. unfold CreateAPI.
  rewrite decide_False by done. simpl. rewrite decide_False by done.
  by rewrite Hlook.
Qed.

(** [CreateService] of a service whose name is not empty and not taken:
    the submitted record is stored as it is, whatever its API mapping. *)
Lemma CreateService_fresh service c :
  Service_Name service <> "" ->
  store c !! Service_Name service = None ->
  CreateService (Some service) c
  = (None, mkCache (<[Service_Name service := service]> (store c))).
Proof.
  intros Hname Hlook. unfold CreateService.
  rewrite decide_False by done. by rewrite Hlook.
Qed.

(** Services with distinct, non-empty, unregistered names, created one
    after the other in any order: every call succeeds, and every service
    is retrievable at the end as it was submitted. *)
Lemma create_services_distinct services c :
  NoDup (Service_Name <$> services) ->
  Forall (fun service => Service_Name service <> "" /\
                         store c !! Service_Name service = None) services ->
  Forall (fun err => err = None) (create_services services c).1 /\
  (forall service, service ∈ services ->
     GetService (Service_Name service) (create_services services c).2
     = inl service) /\
  (forall k, k ∉ Service_Name <$> services ->
     store (create_services services c).2 !! k = store c !! k).
Proof.
  revert c. induction services as [|service rest IH]; intros c Hdup Hall.
  - simpl. split; [constructor|]. split; [|done]. intros ? Hin.
    by apply elem_of_nil in Hin.
  - rewrite fmap_cons in Hdup. apply NoDup_cons in Hdup as [Hfresh Hdup].
    apply Forall_cons in Hall as [[Hname Hlook] Hall].
    cbn [create_services]. rewrite CreateService_fresh by done.
    set (c1 := mkCache (<[Service_Name service := service]> (store c))).
    destruct (IH c1 Hdup) as (Herrs & Hget & Hrest).
    { eapply Forall_impl with (P := fun service' =>
        (Service_Name service' <> "" /\
         store c !! Service_Name service' = None) /\
        Service_Name service' ∈ Service_Name <$> rest).
      - apply Forall_and. split; [done|]. apply Forall_forall.
        intros service' Hin. by apply list_elem_of_fmap_2.
      - intros service' [[Hname' Hlook'] Hin]. split; [done|].
        simpl. rewrite lookup_insert_ne; [done|]. intros Heq.
        apply Hfresh. by rewrite Heq. }
    destruct (create_services rest c1) as [errs c2] eqn:Hrun. simpl in *.
    split; [by constructor|]. split.
    + intros service' Hin. apply elem_of_cons in Hin as [->|Hin].
      * unfold GetService. rewrite Hrest by done. simpl.
        by rewrite lookup_insert_eq.
      * by apply Hget.
    + intros k Hk. apply not_elem_of_cons in Hk as [Hne Hk].
      rewrite Hrest by done. simpl. by rewrite lookup_insert_ne.
Qed.

(** ** The registry: the create operations *)

(** C1 (the code departs from it): [CreateAPI] of an API whose owning
    service was never created.  On the empty registry, the API [createUser]
    of service [userService] passes the emptiness checks, misses in the
    store, and the call does not return an error of any kind: it faults
    while reading the name of the service it did not find.  The registry is
    the same after the call. *)
Theorem CreateAPI_never_created_service_faults :
  store NewCacheDiscovery !! API_Service createUser = None /\
  CreateAPI (Some createUser) NewCacheDiscovery
  = (Panicked NilPointerDereference, NewCacheDiscovery).
Proof. split; [apply lookup_empty|]. by apply CreateAPI_unknown_service. Qed.

(** C4, as stated, fails where the two checks of [CreateAPI] overlap: in
    the registry reached by registering [userService] with an initial
    mapping that holds [unnamedAPI] under its empty name, the pair
    (userService, empty name) is registered, and [CreateAPI] of that same
    record answers with the error of an empty API, a validation error, not
    a conflict. *)
Lemma CreateAPI_registered_empty_name_not_conflict :
  reachable empty_key_registry /\
  (exists svc, store empty_key_registry !! API_Service unnamedAPI = Some svc /\
               is_Some (map_get (Service_APIs svc) (API_Name unnamedAPI))) /\
  CreateAPI (Some unnamedAPI) empty_key_registry
  = (Returned (Some ErrAPIEmpty), empty_key_registry) /\
  kind_of ErrAPIEmpty <> ConflictError.
Proof.
  split; [apply reachable_run_calls, reachable_new|].
  split; [|by split].
  exists emptyKeyService. split; [by vm_compute|].
  exists (Some unnamedAPI). by vm_compute.
Qed.

(** C4 (amended): in every registry reachable through [CreateService] and
    [CreateAPI], no two stored services have the same name, every service
    is stored under its own name, and the API names of a service (the keys
    of its mapping) are pairwise distinct; [CreateService] with a
    registered name, and [CreateAPI] with a non-empty API name and a
    registered (service, name) pair, each return a conflict error and
    leave the registry as it was. *)
Theorem registry_names_unique_and_conflicts c :
  reachable c ->
  NoDup (service_names c) /\
  (forall s svc, store c !! s = Some svc ->
     Service_Name svc = s /\ NoDup (api_names svc)) /\
  (forall service, is_Some (store c !! Service_Name service) ->
     exists err, CreateService (Some service) c = (Some err, c) /\
                 kind_of err = ConflictError) /\
  (forall api svc,
     API_Name api <> "" ->
     store c !! API_Service api = Some svc ->
     is_Some (map_get (Service_APIs svc) (API_Name api)) ->
     exists err, CreateAPI (Some api) c = (Returned (Some err), c) /\
                 kind_of err = ConflictError).
Proof.
  intros Hreach. pose proof (reachable_names_agree c Hreach) as Hagree.
  split; [by apply names_agree_NoDup|]. split; [|split].
  - intros s svc Hs. split; [by apply Hagree in Hs as [? _]|].
    apply api_names_NoDup.
  - intros service [svc Hlook].
    exists (ErrServiceExist (Service_Name service)). split; [|done].
    unfold CreateService. apply Hagree in Hlook as Hname.
    rewrite decide_False by apply Hname. by rewrite Hlook.
  - intros api svc Hname Hlook [x Hget].
    exists (ErrAPIExist (API_Service api) (API_Name api)). split; [|done].
    unfold CreateAPI. rewrite decide_False by done. simpl.
    apply Hagree in Hlook as Hservice.
    rewrite decide_False by apply Hservice. by rewrite Hlook, Hget.
Qed.

Lemma registry_names_unique_and_conflicts_witness :
  NoDup (service_names example_registry) /\
  (exists err, CreateService (Some bareService) example_registry
               = (Some err, example_registry) /\
               kind_of err = ConflictError) /\
  (exists err, CreateAPI (Some createUser) example_registry
               = (Returned (Some err), example_registry) /\
               kind_of err = ConflictError).
Proof.
  destruct (registry_names_unique_and_conflicts example_registry)
    as (Hnames & _ & Hservice & Hapi).
  { apply reachable_run_calls, reachable_new. }
  split; [exact Hnames|]. split.
  - apply Hservice. eexists. by vm_compute.
  - eapply Hapi.
    + by vm_compute.
    + by vm_compute.
    + eexists. by vm_compute.
Defined.

(** C6: [CreateService] stores the submitted record as it is, without a
    look at its API mapping; when that mapping is nil, a later [CreateAPI]
    for the service that passes the emptiness checks (and so the existence
    and duplicate checks: a nil mapping has no entry) does not insert: the
    write into the nil mapping faults, and the registry stays as it was. *)
Theorem CreateAPI_into_nil_mapping_faults c service :
  Service_Name service <> "" ->
  store c !! Service_Name service = None ->
  exists c1,
    CreateService (Some service) c = (None, c1) /\
    GetService (Service_Name service) c1 = inl service /\
    (Service_APIs service = None ->
     forall api,
       API_Name api <> "" ->
       API_Service api = Service_Name service ->
       CreateAPI (Some api) c1 = (Panicked AssignmentToNilMap, c1)).
Proof.
  intros Hname Hfresh. eexists. split; [by apply CreateService_fresh|].
  split.
  - unfold GetService. simpl. by rewrite lookup_insert_eq.
  - intros Hnil api Hapi Hservice. unfold CreateAPI.
    rewrite decide_False by done. simpl. rewrite Hservice.
    rewrite decide_False by done. simpl. rewrite lookup_insert_eq.
    by rewrite Hnil.
Qed.

Lemma CreateAPI_into_nil_mapping_faults_witness :
  CreateService (Some bareService) NewCacheDiscovery = (None, bare_registry) /\
  GetService "userService" bare_registry = inl bareService /\
  CreateAPI (Some createUser) bare_registry
  = (Panicked AssignmentToNilMap, bare_registry).
Proof.
  destruct (CreateAPI_into_nil_mapping_faults NewCacheDiscovery bareService)
    as (c1 & Hcreate & Hget & Hfault).
  { by vm_compute. }
  { by vm_compute. }
  assert (c1 = bare_registry) as -> by (by injection Hcreate as <-).
  split; [exact Hcreate|]. split; [exact Hget|].
  by apply Hfault.
Defined.

(** C7: after a successful [CreateAPI] of a record, [GetService] of its
    owning service succeeds, and the entry of the returned service's API
    mapping under the record's name is the record itself, every field as
    it was passed; this holds right after the call and after any further
    calls of [CreateService] and [CreateAPI]. *)
Theorem created_API_is_retrievable api c c' ks :
  CreateAPI (Some api) c = (Returned None, c') ->
  exists svc,
    GetService (API_Service api) (run_calls ks c') = inl svc /\
    map_get (Service_APIs svc) (API_Name api) = Some (Some api).
Proof.
  intros Hcreate.
  apply CreateAPI_success in Hcreate as (svc & apis & Hs & Hapis & Hnew & ->).
  destruct (run_calls_keeps_api ks
              (mkCache (<[API_Service api :=
                            mkService (Service_Name svc)
                              (Some (<[API_Name api := Some api]> apis))]>
                          (store c)))
              (API_Service api)
              (mkService (Service_Name svc)
                         (Some (<[API_Name api := Some api]> apis)))
              (API_Name api) (Some api)) as (svc' & Hs' & Ha').
  - simpl. by rewrite lookup_insert_eq.
  - simpl. by rewrite lookup_insert_eq.
  - exists svc'. split; [|done]. unfold GetService. by rewrite Hs'.
Qed.

Lemma created_API_is_retrievable_witness :
  exists svc,
    GetService "userService"
      (run_calls [CallCreateAPI (Some unnamedAPI);
                  CallCreateService (Some bareService)] example_registry)
    = inl svc /\
    map_get (Service_APIs svc) "createUser" = Some (Some createUser).
Proof.
  apply (created_API_is_retrievable createUser
           (run_calls [CallCreateService (Some userService)] NewCacheDiscovery)
           example_registry
           [CallCreateAPI (Some unnamedAPI);
            CallCreateService (Some bareService)]).
  by vm_compute.
Defined.

(** C9: a create call with a malformed identifying field ([CreateService]
    of the nil service or of a service with the empty name; [CreateAPI] of
    the nil API, of an API with the empty name, or of an API with the
    empty owning-service name) returns a validation error, and the
    registry after the call is the registry before it. *)
Theorem malformed_create_is_validation_error c :
  (forall service,
     service = None \/ (exists s, service = Some s /\ Service_Name s = "") ->
     exists err, CreateService service c = (Some err, c) /\
                 kind_of err = ValidationError) /\
  (forall api,
     api = None \/
     (exists a, api = Some a /\ (API_Name a = "" \/ API_Service a = "")) ->
     exists err, CreateAPI api c = (Returned (Some err), c) /\
                 kind_of err = ValidationError).
Proof.
  split.
  - intros service [->|(s & -> & Hname)]; exists ErrServiceEmpty;
      (split; [|done]); [done|].
    unfold CreateService. by rewrite decide_True.
  - intros api [->|(a & -> & Hbad)]; [by exists ErrAPIEmpty|].
    unfold CreateAPI. case_decide as Hname; [by exists ErrAPIEmpty|].
    destruct Hbad as [?|Hservice]; [done|]. simpl.
    rewrite decide_True by done. by exists ErrServiceNameEmpty.
Qed.

Lemma malformed_create_is_validation_error_witness :
  (exists err, CreateService None example_registry = (Some err, example_registry) /\
               kind_of err = ValidationError) /\
  (exists err, CreateService (Some (mkService "" (Some ∅))) example_registry
               = (Some err, example_registry) /\
               kind_of err = ValidationError) /\
  (exists err, CreateAPI None example_registry
               = (Returned (Some err), example_registry) /\
               kind_of err = ValidationError) /\
  (exists err, CreateAPI (Some unnamedAPI) example_registry
               = (Returned (Some err), example_registry) /\
               kind_of err = ValidationError) /\
  (exists err, CreateAPI (Some (mkAPI "createUser" "" "http" "post" "" ""))
                 example_registry
               = (Returned (Some err), example_registry) /\
               kind_of err = ValidationError).
Proof.
  destruct (malformed_create_is_validation_error example_registry)
    as [Hservice Hapi].
  split; [|split; [|split; [|split]]].
  - apply Hservice. by left.
  - apply Hservice. right. by eexists.
  - apply Hapi. by left.
  - apply Hapi. right. eexists. split; [done|]. by left.
  - apply Hapi. right. eexists. split; [done|]. by right.
Defined.

(** ** The director *)

Lemma route_path_nonempty pre s a : route_path pre s a <> "".
Proof. by destruct pre. Qed.

(** With the path of the request known to be a route, the director is past
    its two checks on the shape of the path. *)
Ltac director_at_route Hpath :=
  unfold director; rewrite Hpath;
  rewrite decide_False by apply route_path_nonempty;
  rewrite Split_route by done;
  unfold GetService.

Lemma director_wrong_count gateway req :
  count_byte "/" (URL_Path (Request_URL req)) <> 2 ->
  director gateway req = ([], Returned req).
Proof.
  intros Hcount. unfold director. case_decide; [done|].
  pose proof (Split_length "/" (URL_Path (Request_URL req))) as Hlen.
  destruct (Split (URL_Path (Request_URL req)) "/")
    as [|pre [|s [|a [|]]]]; try done.
  simpl in Hlen. lia.
Qed.

Lemma set_backend_rewritten api req : rewritten_for api req (set_backend api req).
Proof. by repeat split. Qed.

Section Resolved.
Variables (gateway : APIGateway) (req : Request).
Variables (s a : string) (svc : Service) (api : API).
Hypothesis Hs : segment s.
Hypothesis Ha : segment a.
Hypothesis Hpath : URL_Path (Request_URL req) = route_path "" s a.
Hypothesis Hservice : store (discovery gateway) !! s = Some svc.
Hypothesis Hapi : map_get (Service_APIs svc) a = Some (Some api).

(** C2: for a request whose path is [/{s}/{a}], with [s] a registered
    service whose API mapping has the record [api] under [a], the director
    returns with the scheme of the request set to the protocol of [api],
    the host to its host and the path to its declared path after a
    separator; the query string and the body (and the method and the
    headers) are those of the inbound request. *)
Theorem director_rewrites_to_backend :
  exists lines out,
    director gateway req = (lines, Returned out) /\
    rewritten_for api req out.
Proof using Hs Ha Hpath Hservice Hapi.
  director_at_route Hpath. rewrite Hservice, Hapi.
  eexists _, _. split; [done|]. apply set_backend_rewritten.
Qed.

(** C8: when the path resolves to a registered API and the method of the
    request is not the one the API declares, the director logs the
    mismatch, after the line that names the service and the API, and then
    rewrites scheme, host and path as for a request with the declared
    method: both are sent to the same URL. *)
Theorem director_method_mismatch_only_logged :
  Request_Method req <> API_HTTPMethod api ->
  exists out,
    director gateway req
    = (["request service name: " +:+ s +:+ ", api name: " +:+ a;
        "method: " +:+ Request_Method req +:+ " unsupported, should be: "
          +:+ API_HTTPMethod api],
       Returned out) /\
    rewritten_for api req out /\
    forall req',
      Request_Method req' = API_HTTPMethod api ->
      Request_URL req' = Request_URL req ->
      exists out',
        director gateway req'
        = (["request service name: " +:+ s +:+ ", api name: " +:+ a],
           Returned out') /\
        Request_URL out' = Request_URL out.
Proof using Hs Ha Hpath Hservice Hapi.
  intros Hmethod. exists (set_backend api req). split; [|split].
  - director_at_route Hpath. rewrite Hservice, Hapi.
    by rewrite decide_True.
  - apply set_backend_rewritten.
  - intros req' Hmethod' Hurl. exists (set_backend api req'). split.
    + assert (URL_Path (Request_URL req') = route_path "" s a) as Hpath'
        by (by rewrite Hurl).
      director_at_route Hpath'. rewrite Hservice, Hapi.
      rewrite decide_False; [done|]. by intros [].
    + unfold set_backend. simpl. by rewrite Hurl.
Qed.

End Resolved.

Lemma director_rewrites_to_backend_witness :
  exists lines out,
    director (mkAPIGateway example_registry)
             (example_request "post" "/userService/createUser")
    = (lines, Returned out) /\
    rewritten_for createUser
      (example_request "post" "/userService/createUser") out.
Proof.
  apply (director_rewrites_to_backend
           (mkAPIGateway example_registry)
           (example_request "post" "/userService/createUser")
           "userService" "createUser"
           (mkService "userService" (Some {[ "createUser" := Some createUser ]}))
           createUser); by vm_compute.
Defined.

Lemma director_method_mismatch_only_logged_witness :
  exists out,
    director (mkAPIGateway example_registry)
             (example_request "POST" "/userService/createUser")
    = (["request service name: userService, api name: createUser";
        "method: POST unsupported, should be: post"],
       Returned out) /\
    URL_Scheme (Request_URL out) = "http" /\
    URL_Host (Request_URL out) = "198.15.26.10:8080" /\
    URL_Path (Request_URL out) = "/user/createUser".
Proof.
  destruct (director_method_mismatch_only_logged
              (mkAPIGateway example_registry)
              (example_request "POST" "/userService/createUser")
              "userService" "createUser"
              (mkService "userService"
                         (Some {[ "createUser" := Some createUser ]}))
              createUser) as (out & Hrun & Hout & _); try by vm_compute.
  exists out. split; [exact Hrun|].
  destruct Hout as (Hscheme & Hhost & Hp & _). by rewrite Hscheme, Hhost, Hp.
Defined.

(** C3: on a resolution failure (a path that has not exactly two
    separators, a service segment that names no registered service, an API
    segment that names no entry of the mapping of the service found) the
    director returns, and the request is the inbound request, field for
    field. *)
Theorem director_failure_leaves_request gateway req :
  resolution_failure (discovery gateway) (URL_Path (Request_URL req)) ->
  (director gateway req).2 = Returned req.
Proof.
  intros [Hcount | pre s a Hpre Hs Ha Hpath Hmiss
                 | pre s a svc Hpre Hs Ha Hpath Hservice Hmiss].
  - by rewrite director_wrong_count.
  - director_at_route Hpath. by rewrite Hmiss.
  - director_at_route Hpath. by rewrite Hservice, Hmiss.
Qed.

Lemma director_failure_leaves_request_witness :
  (director (mkAPIGateway example_registry) (example_request "GET" "/a/b/c")).2
  = Returned (example_request "GET" "/a/b/c") /\
  (director (mkAPIGateway example_registry)
            (example_request "GET" "/unknown/foo")).2
  = Returned (example_request "GET" "/unknown/foo") /\
  (director (mkAPIGateway example_registry)
            (example_request "GET" "/userService/deleteUser")).2
  = Returned (example_request "GET" "/userService/deleteUser").
Proof.
  split; [|split]; apply director_failure_leaves_request.
  - apply wrong_segment_count. by vm_compute.
  - by apply (unknown_service _ _ "" "unknown" "foo").
  - by apply (unknown_api _ _ "" "userService" "deleteUser"
                (mkService "userService"
                           (Some {[ "createUser" := Some createUser ]}))).
Defined.

(** C5, as stated, fails on a path with an empty second segment: in the
    registry reached by registering [userService] with an initial mapping
    that holds [unnamedAPI] under its empty name, the path [/userService/]
    is not of two non-empty segments, and the director resolves it all the
    same and rewrites the request. *)
Lemma director_resolves_empty_api_segment :
  reachable empty_key_registry /\
  ~ two_nonempty_segments "/userService/" /\
  (director (mkAPIGateway empty_key_registry)
            (example_request "GET" "/userService/")).2
  = Returned (mkRequest "GET"
                (mkURL "http" "198.15.26.10:8080" "/user/list" "debug=1")
                [("Content-Type", ["application/json"])] "{}") /\
  example_request "GET" "/userService/"
  <> mkRequest "GET"
       (mkURL "http" "198.15.26.10:8080" "/user/list" "debug=1")
       [("Content-Type", ["application/json"])] "{}".
Proof.
  split; [apply reachable_run_calls, reachable_new|].
  split; [|by split].
  intros (s & a & Hs & Ha & _ & Hnonempty & Hpath).
  assert (Split "/userService/" "/" = [""; s; a]) as Hsplit
    by (rewrite Hpath; by apply Split_route).
  vm_compute in Hsplit. injection Hsplit as _ <-. done.
Qed.

(** C5 (amended): the director goes on to resolve a path exactly when the
    path has exactly two separators (for a path that starts with the
    separator: [/{service}/{api}], where either name may be empty), and it
    then logs the service and API names it read; a path of any other
    shape leaves the request as it arrived and nothing logged.  In a
    registry reachable through [CreateService] and [CreateAPI], a path
    with an empty service segment never resolves, and the request is left
    as it arrived; a path with an empty API segment resolves like any
    other, to the entry of the service's mapping under the empty key when
    there is one. *)
Theorem director_path_shape gateway req :
  (count_byte "/" (URL_Path (Request_URL req)) = 2 <->
   (director gateway req).1 <> []) /\
  (count_byte "/" (URL_Path (Request_URL req)) <> 2 ->
   director gateway req = ([], Returned req)) /\
  (reachable (discovery gateway) ->
   forall pre a,
     URL_Path (Request_URL req) = route_path pre "" a ->
     (director gateway req).2 = Returned req) /\
  (forall pre s svc api,
     segment pre -> segment s ->
     URL_Path (Request_URL req) = route_path pre s "" ->
     store (discovery gateway) !! s = Some svc ->
     map_get (Service_APIs svc) "" = Some (Some api) ->
     exists out, (director gateway req).2 = Returned out /\
                 rewritten_for api req out).
Proof.
  split; [|split; [|split]].
  - split.
    + intros (pre & s & a & Hpre & Hs & Ha & Hpath)%count_two_route.
      director_at_route Hpath.
      destruct (store (discovery gateway) !! s) as [svc|]; [|done].
      by destruct (map_get (Service_APIs svc) a) as [[api|]|].
    + intros Hlog.
      destruct (decide (count_byte "/" (URL_Path (Request_URL req)) = 2))
        as [|Hcount]; [done|].
      by rewrite director_wrong_count in Hlog.
  - apply director_wrong_count.
  - intros Hreach pre a Hpath.
    destruct (decide (count_byte "/" (URL_Path (Request_URL req)) = 2))
      as [Hcount|Hcount]; [|by rewrite director_wrong_count].
    assert (segment pre /\ segment a) as [Hpre Ha].
    { rewrite Hpath in Hcount. unfold route_path in Hcount.
      rewrite count_byte_app in Hcount. simpl in Hcount.
      change ("" +:+ a) with a in Hcount. unfold segment. rewrite <- !count_byte_0. lia. }
    director_at_route Hpath.
    destruct (store (discovery gateway) !! "") as [svc|] eqn:Hlook; [|done].
    by apply (reachable_names_agree _ Hreach) in Hlook as [_ ?].
  - intros pre s svc api Hpre Hs Hpath Hservice Hapi.
    director_at_route Hpath. rewrite Hservice, Hapi.
    eexists. split; [done|]. apply set_backend_rewritten.
Qed.

Lemma director_path_shape_witness :
  (director (mkAPIGateway example_registry)
            (example_request "GET" "/userService/createUser")).1 <> [] /\
  director (mkAPIGateway example_registry) (example_request "GET" "/a/b/c")
  = ([], Returned (example_request "GET" "/a/b/c")) /\
  (director (mkAPIGateway empty_key_registry)
            (example_request "GET" "//createUser")).2
  = Returned (example_request "GET" "//createUser") /\
  (exists out,
     (director (mkAPIGateway empty_key_registry)
               (example_request "GET" "/userService/")).2 = Returned out /\
     rewritten_for unnamedAPI (example_request "GET" "/userService/") out).
Proof.
  split; [|split; [|split]].
  - apply (director_path_shape (mkAPIGateway example_registry)
             (example_request "GET" "/userService/createUser")).
    by vm_compute.
  - apply (director_path_shape (mkAPIGateway example_registry)
             (example_request "GET" "/a/b/c")).
    by vm_compute.
  - apply (director_path_shape (mkAPIGateway empty_key_registry)
             (example_request "GET" "//createUser"))
      with (pre := "") (a := "createUser").
    + apply reachable_run_calls, reachable_new.
    + by vm_compute.
  - apply (director_path_shape (mkAPIGateway empty_key_registry)
             (example_request "GET" "/userService/"))
      with (pre := "") (s := "userService") (svc := emptyKeyService);
      by vm_compute.
Defined.

(** ** The stored closure *)


(** * Further properties of the code *)

(** ** The registry *)

Lemma CreateService_failed_unchanged service c :
  (CreateService service c).1 <> None -> (CreateService service c).2 = c.
Proof.
  destruct service as [service|]; [|done]. unfold CreateService.
  case_decide; [done|]. by destruct (store c !! Service_Name service).
Qed.

Lemma CreateAPI_failed_unchanged api c :
  (CreateAPI api c).1 <> Returned None -> (CreateAPI api c).2 = c.
Proof.
  destruct api as [api|]; [|done]. unfold CreateAPI.
  case_decide; [done|]. simpl. case_decide; [done|].
  destruct (store c !! API_Service api) as [svc|]; [|done].
  destruct (map_get (Service_APIs svc) (API_Name api)); [done|].
  by destruct (map_set (Service_APIs svc) (API_Name api) (Some api)).
Qed.

(** X1: a create call that does not return nil (it returns an error, or
    it faults) leaves the registry exactly as it was: both operations
    write last, after every check. *)
Theorem failed_create_leaves_registry c :
  (forall service,
     (CreateService service c).1 <> None -> (CreateService service c).2 = c) /\
  (forall api,
     (CreateAPI api c).1 <> Returned None -> (CreateAPI api c).2 = c).
Proof.
  split; intros x; [apply CreateService_failed_unchanged
                   |apply CreateAPI_failed_unchanged].
Qed.

Lemma failed_create_leaves_registry_witness :
  (CreateService (Some bareService) example_registry).2 = example_registry /\
  (CreateAPI (Some createUser) bare_registry).2 = bare_registry.
Proof.
  split.
  - apply (failed_create_leaves_registry example_registry). by vm_compute.
  - apply (failed_create_leaves_registry bare_registry). by vm_compute.
Defined.



Lemma CreateService_keeps_existing service c k svc :
  store c !! k = Some svc ->
  store (CreateService service c).2 !! k = Some svc.
Proof.
  intros Hk. destruct service as [service|]; [|done].
  unfold CreateService. case_decide; [done|].
  destruct (store c !! Service_Name service) eqn:Hlook; [done|].
  simpl. rewrite lookup_insert_ne; [done|]. congruence.
Qed.

(** X3: [CreateService] never touches a service that is already stored,
    whatever it answers, and the number of services grows by one when it
    returns nil and stays the same otherwise. *)
Theorem CreateService_adds_at_most_one service c :
  (forall k svc,
     store c !! k = Some svc ->
     store (CreateService service c).2 !! k = Some svc) /\
  size (store (CreateService service c).2)
  = size (store c) + match (CreateService service c).1 with
                     | None => 1
                     | Some _ => 0
                     end.
Proof.
  split; [intros k svc; apply CreateService_keeps_existing|].
  destruct service as [service|]; [|simpl; lia].
  unfold CreateService. case_decide; [simpl; lia|].
  destruct (store c !! Service_Name service) eqn:Hlook; [simpl; lia|].
  simpl. rewrite map_size_insert_None by done. lia.
Qed.

Lemma CreateService_adds_at_most_one_witness :
  store (CreateService (Some orderService) example_registry).2 !! "userService"
  = store example_registry !! "userService" /\
  size (store (CreateService (Some orderService) example_registry).2) = 2 /\
  size (store (CreateService (Some bareService) example_registry).2) = 1.
Proof.
  destruct (CreateService_adds_at_most_one (Some orderService) example_registry)
    as [Hkeep Hsize].
  destruct (CreateService_adds_at_most_one (Some bareService) example_registry)
    as [_ Hsize'].
  split; [|split].
  - rewrite (Hkeep "userService"
               (mkService "userService"
                          (Some {[ "createUser" := Some createUser ]})));
      by vm_compute.
  - rewrite Hsize. by vm_compute.
  - rewrite Hsize'. by vm_compute.
Defined.

(** One call keeps every stored service, with its name and with each
    entry of its API mapping. *)
Lemma run_call_grows k c s svc :
  store c !! s = Some svc ->
  exists svc', store (run_call k c) !! s = Some svc' /\
               Service_Name svc' = Service_Name svc /\
               (forall a x, map_get (Service_APIs svc) a = Some x ->
                            map_get (Service_APIs svc') a = Some x).
Proof.
  intros Hs. destruct k as [service|api]; simpl.
  - exists svc. by rewrite (CreateService_keeps_existing service c s svc).
  - unfold CreateAPI. destruct api as [api|]; [|by eauto].
    case_decide; [by eauto|]. simpl. case_decide; [by eauto|].
    destruct (store c !! API_Service api) as [service|] eqn:Hlook; [|by eauto].
    destruct (map_get (Service_APIs service) (API_Name api)) eqn:Hget;
      [by eauto|].
    destruct (Service_APIs service) as [apis|] eqn:Hapis; simpl; [|by eauto].
    rewrite lookup_insert. case_decide as Hk; [|by eauto].
    subst s. rewrite Hlook in Hs. injection Hs as <-.
    eexists. split; [done|]. split; [done|]. simpl.
    intros a x Ha. rewrite Hapis in Ha. simpl in Ha, Hget.
    rewrite lookup_insert_ne; [done|]. congruence.
Qed.

(** One call leaves a service whose API mapping is nil as it is. *)
Lemma run_call_keeps_nil_mapping k c s svc :
  store c !! s = Some svc -> Service_APIs svc = None ->
  store (run_call k c) !! s = Some svc.
Proof.
  intros Hs Hnil. destruct k as [service|api]; simpl.
  - by apply CreateService_keeps_existing.
  - unfold CreateAPI. destruct api as [api|]; [|done].
    case_decide; [done|]. simpl. case_decide; [done|].
    destruct (store c !! API_Service api) as [service|] eqn:Hlook; [|done].
    destruct (map_get (Service_APIs service) (API_Name api)); [done|].
    destruct (Service_APIs service) as [apis|] eqn:Hapis; simpl; [|done].
    rewrite lookup_insert_ne; [done|]. intros <-. congruence.
Qed.

(** X4: a service stored with a nil API mapping stays exactly as it is
    through every later sequence of [CreateService] and [CreateAPI]
    calls: no call gives it a mapping, so it never gets an API. *)
Theorem nil_mapping_is_permanent ks c s svc :
  store c !! s = Some svc -> Service_APIs svc = None ->
  store (run_calls ks c) !! s = Some svc.
Proof.
  revert c. induction ks as [|k ks IH]; intros c Hs Hnil; [done|].
  apply IH; [|done]. by apply run_call_keeps_nil_mapping.
Qed.

Lemma nil_mapping_is_permanent_witness :
  store (run_calls [CallCreateAPI (Some createUser);
                    CallCreateService (Some userService);
                    CallCreateAPI (Some createUser)] bare_registry)
    !! "userService"
  = Some bareService.
Proof. by apply nil_mapping_is_permanent. Defined.

(** X5: the registry only grows.  Through every sequence of
    [CreateService] and [CreateAPI] calls a stored service stays stored
    under its key, keeps its name, and keeps every entry of its API
    mapping with the same record. *)
Theorem registry_only_grows ks c s svc :
  store c !! s = Some svc ->
  exists svc', store (run_calls ks c) !! s = Some svc' /\
               Service_Name svc' = Service_Name svc /\
               (forall a x, map_get (Service_APIs svc) a = Some x ->
                            map_get (Service_APIs svc') a = Some x).
Proof.
  revert c svc. induction ks as [|k ks IH]; intros c svc Hs; [by eauto|].
  destruct (run_call_grows k c s svc Hs) as (svc1 & Hs1 & Hname1 & Hapis1).
  destruct (IH _ svc1 Hs1) as (svc2 & Hs2 & Hname2 & Hapis2).
  exists svc2. split; [done|]. split; [congruence|]. by eauto.
Qed.

Lemma registry_only_grows_witness :
  exists svc',
    store (run_calls [CallCreateService (Some bareService);
                      CallCreateAPI (Some unnamedAPI);
                      CallCreateService (Some orderService)] example_registry)
      !! "userService" = Some svc' /\
    Service_Name svc' = "userService" /\
    map_get (Service_APIs svc') "createUser" = Some (Some createUser).
Proof.
  destruct (registry_only_grows
              [CallCreateService (Some bareService);
               CallCreateAPI (Some unnamedAPI);
               CallCreateService (Some orderService)]
              example_registry "userService"
              (mkService "userService"
                         (Some {[ "createUser" := Some createUser ]})))
    as (svc' & Hs & Hname & Hapis); [by vm_compute|].
  exists svc'. split; [exact Hs|]. split; [exact Hname|].
  apply Hapis. by vm_compute.
Defined.

(** X6: when [CreateAPI] faults.  It faults exactly on a non-nil API with
    a non-empty name and a non-empty service name whose service is not
    stored (a read through the nil pointer) or is stored with a nil API
    mapping (a write into the nil map); on every other input it returns. *)
Theorem CreateAPI_fault_conditions api c p :
  (CreateAPI api c).1 = Panicked p <->
  exists a,
    api = Some a /\ API_Name a <> "" /\ API_Service a <> "" /\
    ((store c !! API_Service a = None /\ p = NilPointerDereference) \/
     (exists svc, store c !! API_Service a = Some svc /\
                  Service_APIs svc = None /\ p = AssignmentToNilMap)).
Proof.
  split.
  - destruct api as [api|]; [|done]. unfold CreateAPI.
    case_decide; [done|]. simpl. case_decide; [done|].
    destruct (store c !! API_Service api) as [svc|] eqn:Hlook.
    + destruct (Service_APIs svc) as [apis|] eqn:Hapis; simpl.
      * by destruct (apis !! API_Name api).
      * intros [= <-]. exists api. repeat (split; [done|]).
        right. by exists svc.
    + intros [= <-]. exists api. repeat (split; [done|]). by left.
  - intros (a & -> & Hname & Hservice & [[Hlook ->]|(svc & Hlook & Hnil & ->)]);
      unfold CreateAPI; rewrite decide_False by done; simpl;
      rewrite decide_False by done; rewrite Hlook; [done|].
    by rewrite Hnil.
Qed.

Lemma CreateAPI_fault_conditions_witness :
  (CreateAPI (Some createUser) bare_registry).1 = Panicked AssignmentToNilMap.
Proof.
  apply CreateAPI_fault_conditions. exists createUser.
  split; [done|]. split; [done|]. split; [done|].
  right. exists bareService. by vm_compute.
Defined.

(** X7: the first registration of a service name wins.  After
    [CreateService] has stored a service, a [CreateService] of any record
    with the same name returns the error of an existing service, the
    registry is not changed, and [GetService] still returns the first
    record. *)
Theorem CreateService_first_wins service c c' :
  CreateService (Some service) c = (None, c') ->
  forall service',
    Service_Name service' = Service_Name service ->
    CreateService (Some service') c'
    = (Some (ErrServiceExist (Service_Name service)), c') /\
    GetService (Service_Name service) c' = inl service.
Proof.
  unfold CreateService at 1. case_decide as Hname; [done|].
  destruct (store c !! Service_Name service); [done|].
  intros [= <-] service' Hsame. unfold CreateService, GetService.
  rewrite Hsame. rewrite decide_False by done. simpl.
  by rewrite lookup_insert_eq.
Qed.

Lemma CreateService_first_wins_witness :
  CreateService (Some userService) bare_registry
  = (Some (ErrServiceExist "userService"), bare_registry) /\
  GetService "userService" bare_registry = inl bareService.
Proof.
  apply (CreateService_first_wins bareService NewCacheDiscovery bare_registry);
    by vm_compute.
Defined.

(** X8: the first registration of an API name under a service wins.  After
    [CreateAPI] has stored a record, a [CreateAPI] of any record with the
    same service and name returns the error of an existing API, the
    registry is not changed, and the entry looked up under that service
    and name is still the first record. *)
Theorem CreateAPI_first_wins api c c' :
  CreateAPI (Some api) c = (Returned None, c') ->
  forall api',
    API_Service api' = API_Service api ->
    API_Name api' = API_Name api ->
    CreateAPI (Some api') c'
    = (Returned (Some (ErrAPIExist (API_Service api) (API_Name api))), c') /\
    lookup_api c' (API_Service api) (API_Name api) = Some (Some api).
Proof.
  intros Hcreate api' Hservice Hname.
  assert (API_Name api <> "" /\ API_Service api <> "") as [Hn Hs].
  { unfold CreateAPI in Hcreate. case_decide; [done|]. simpl in Hcreate.
    by case_decide. }
  apply CreateAPI_success in Hcreate as (svc & apis & _ & _ & _ & ->).
  unfold CreateAPI, lookup_api, GetService. rewrite Hservice, Hname.
  rewrite decide_False by done. simpl. rewrite decide_False by done.
  rewrite lookup_insert_eq. simpl. by rewrite lookup_insert_eq.
Qed.

Lemma CreateAPI_first_wins_witness :
  CreateAPI (Some (mkAPI "createUser" "userService" "https" "put"
                         "example.org" "other"))
            example_registry
  = (Returned (Some (ErrAPIExist "userService" "createUser")),
     example_registry) /\
  lookup_api example_registry "userService" "createUser"
  = Some (Some createUser).
Proof.
  apply (CreateAPI_first_wins createUser
           (run_calls [CallCreateService (Some userService)] NewCacheDiscovery)
           example_registry); by vm_compute.
Defined.

(** X9: services with distinct, non-empty, unregistered names can be
    created in any order: every call returns nil, every service is then
    returned by [GetService] as it was submitted, and the registry at the
    end is the same for every order. *)
Theorem create_services_any_order services services' c :
  services' ≡ₚ services ->
  NoDup (Service_Name <$> services) ->
  Forall (fun service => Service_Name service <> "" /\
                         store c !! Service_Name service = None) services ->
  Forall (fun err => err = None) (create_services services' c).1 /\
  (forall service, service ∈ services ->
     GetService (Service_Name service) (create_services services' c).2
     = inl service) /\
  (create_services services' c).2 = (create_services services c).2.
Proof.
  intros Hperm Hdup Hall.
  destruct (create_services_distinct services c Hdup Hall)
    as (_ & Hget & Hrest).
  destruct (create_services_distinct services' c)
    as (Herrs' & Hget' & Hrest').
  { by rewrite Hperm. }
  { by rewrite Hperm. }
  split; [done|]. split.
  - intros service Hin. apply Hget'. by rewrite Hperm.
  - destruct (create_services services' c).2 as [store'].
    destruct (create_services services c).2 as [store0].
    simpl in *. f_equal. apply map_eq. intros k.
    destruct (decide (k ∈ Service_Name <$> services)) as [Hk|Hk].
    + apply list_elem_of_fmap in Hk as (service & -> & Hin).
      specialize (Hget service Hin).
      assert (service ∈ services') as Hin' by (by rewrite Hperm).
      specialize (Hget' service Hin').
      unfold GetService in Hget, Hget'. simpl in *.
      destruct (store' !! Service_Name service); [|done].
      destruct (store0 !! Service_Name service); [|done].
      congruence.
    + rewrite Hrest by done. apply Hrest'. by rewrite Hperm.
Qed.

Lemma create_services_any_order_witness :
  Forall (fun err => err = None)
    (create_services [payService; userService; orderService]
                     NewCacheDiscovery).1 /\
  (create_services [payService; userService; orderService] NewCacheDiscovery).2
  = (create_services [userService; orderService; payService]
                     NewCacheDiscovery).2.
Proof.
  destruct (create_services_any_order
              [userService; orderService; payService]
              [payService; userService; orderService] NewCacheDiscovery)
    as (Herrs & _ & Hsame).
  - apply Permutation_cons_append.
  - apply (bool_decide_unpack _). by vm_compute.
  - repeat constructor; by vm_compute.
  - split; [exact Herrs | exact Hsame].
Defined.

(** ** The director and the registry together *)

(** X10: an API created by [CreateAPI] is routable from then on.  When
    its service name and its name contain no separator, after the
    successful call and after any further [CreateService] and [CreateAPI]
    calls the director sends a request for [/{service}/{name}] to the
    backend of the record that was submitted. *)
Theorem created_API_is_routable api c c' ks req :
  CreateAPI (Some api) c = (Returned None, c') ->
  segment (API_Service api) -> segment (API_Name api) ->
  URL_Path (Request_URL req)
  = route_path "" (API_Service api) (API_Name api) ->
  exists lines out,
    director (mkAPIGateway (run_calls ks c')) req = (lines, Returned out) /\
    rewritten_for api req out.
Proof.
  intros Hcreate Hs Ha Hpath.
  apply CreateAPI_success in Hcreate as (svc & apis & _ & _ & _ & ->).
  destruct (run_calls_keeps_api ks
              (mkCache (<[API_Service api :=
                            mkService (Service_Name svc)
                              (Some (<[API_Name api := Some api]> apis))]>
                          (store c)))
              (API_Service api)
              (mkService (Service_Name svc)
                         (Some (<[API_Name api := Some api]> apis)))
              (API_Name api) (Some api)) as (svc' & Hs' & Ha').
  - simpl. by rewrite lookup_insert_eq.
  - simpl. by rewrite lookup_insert_eq.
  - director_at_route Hpath. simpl. rewrite Hs', Ha'.
    eexists _, _. split; [done|]. apply set_backend_rewritten.
Qed.

Lemma created_API_is_routable_witness :
  exists lines out,
    director
      (mkAPIGateway
         (run_calls [CallCreateService (Some orderService);
                     CallCreateAPI (Some unnamedAPI)] example_registry))
      (example_request "post" "/userService/createUser")
    = (lines, Returned out) /\
    rewritten_for createUser
      (example_request "post" "/userService/createUser") out.
Proof.
  apply (created_API_is_routable createUser
           (run_calls [CallCreateService (Some userService)] NewCacheDiscovery)
           example_registry); by vm_compute.
Defined.

(** X11: an entry whose service name or API name contains the separator
    cannot be reached.  In a registry where every entry of every API
    mapping has a separator in its service name or in its API name, the
    director leaves every request as it arrived. *)
Theorem separator_in_name_unroutable c req :
  (forall s svc a x,
     store c !! s = Some svc -> map_get (Service_APIs svc) a = Some x ->
     ~ (segment s /\ segment a)) ->
  (director (mkAPIGateway c) req).2 = Returned req.
Proof.
  intros Hnames. unfold director. case_decide; [done|].
  destruct (Split (URL_Path (Request_URL req)) "/")
    as [|pre [|s [|a [|]]]] eqn:Hsplit; try done.
  apply Split_three in Hsplit as (_ & _ & Hs & Ha).
  unfold GetService. simpl.
  destruct (store c !! s) as [svc|] eqn:Hlook; [|done].
  destruct (map_get (Service_APIs svc) a) as [x|] eqn:Hget; [|done].
  by destruct (Hnames s svc a x Hlook Hget).
Qed.

Lemma separator_in_name_unroutable_witness :
  (director
     (mkAPIGateway
        (run_calls [CallCreateService (Some slashService)] NewCacheDiscovery))
     (example_request "post" "/user/Service/createUser")).2
  = Returned (example_request "post" "/user/Service/createUser").
Proof.
  apply separator_in_name_unroutable.
  intros s svc a x Hs Ha [Hseg _].
  change (run_calls [CallCreateService (Some slashService)] NewCacheDiscovery)
    with (mkCache {[ "user/Service" := slashService ]}) in Hs.
  simpl in Hs. apply lookup_singleton_Some in Hs as [<- _]. done.
Defined.

(** X12: what the director can do to a request.  Whatever the registry
    and the request, when the director returns, the request is either the
    inbound request, or it has been set to the backend of a record that is
    stored in the registry under the service and API names that the path
    carries. *)
Theorem director_rewrites_only_to_registered gateway req lines out :
  director gateway req = (lines, Returned out) ->
  out = req \/
  exists pre s a svc api,
    segment pre /\ segment s /\ segment a /\
    URL_Path (Request_URL req) = route_path pre s a /\
    store (discovery gateway) !! s = Some svc /\
    map_get (Service_APIs svc) a = Some (Some api) /\
    rewritten_for api req out.
Proof.
  unfold director. case_decide; [by intros [= _ <-]; left|].
  destruct (Split (URL_Path (Request_URL req)) "/")
    as [|pre [|s [|a [|]]]] eqn:Hsplit; try (by intros [= _ <-]; left).
  apply Split_three in Hsplit as (Hpath & Hpre & Hs & Ha).
  unfold GetService.
  destruct (store (discovery gateway) !! s) as [svc|] eqn:Hlook;
    [|by intros [= _ <-]; left].
  destruct (map_get (Service_APIs svc) a) as [[api|]|] eqn:Hget;
    [|done|by intros [= _ <-]; left].
  intros [= _ <-]. right. exists pre, s, a, svc, api.
  repeat (split; [done|]). apply set_backend_rewritten.
Qed.

Lemma director_rewrites_only_to_registered_witness :
  example_request "GET" "/userService/createUser"
  <> set_backend createUser (example_request "GET" "/userService/createUser") /\
  exists pre s a svc api,
    segment pre /\ segment s /\ segment a /\
    "/userService/createUser" = route_path pre s a /\
    store example_registry !! s = Some svc /\
    map_get (Service_APIs svc) a = Some (Some api) /\
    rewritten_for api (example_request "GET" "/userService/createUser")
      (set_backend createUser
         (example_request "GET" "/userService/createUser")).
Proof.
  split; [done|].
  destruct (director_rewrites_only_to_registered
              (mkAPIGateway example_registry)
              (example_request "GET" "/userService/createUser")
              ["request service name: userService, api name: createUser";
               "method: GET unsupported, should be: post"]
              (set_backend createUser
                 (example_request "GET" "/userService/createUser")))
    as [Hsame|Hreg]; [by vm_compute|done|exact Hreg].
Defined.

(** X13: the director never touches the payload.  Whatever it does to
    scheme, host and path, when it returns, the method, the query string,
    the headers and the body of the request are those that arrived. *)
Theorem director_keeps_payload gateway req lines out :
  director gateway req = (lines, Returned out) ->
  Request_Method out = Request_Method req /\
  URL_RawQuery (Request_URL out) = URL_RawQuery (Request_URL req) /\
  Request_Header out = Request_Header req /\
  Request_Body out = Request_Body req.
Proof.
  unfold director. case_decide; [by intros [= _ <-]|].
  destruct (Split (URL_Path (Request_URL req)) "/")
    as [|pre [|s [|a [|]]]]; try (by intros [= _ <-]).
  destruct (GetService s (discovery gateway)) as [svc|];
    [|by intros [= _ <-]].
  by destruct (map_get (Service_APIs svc) a) as [[api|]|]; intros [= _ <-].
Qed.

Lemma director_keeps_payload_witness :
  Request_Method
    (set_backend createUser
       (example_request "DELETE" "/userService/createUser")) = "DELETE" /\
  URL_RawQuery
    (Request_URL
       (set_backend createUser
          (example_request "DELETE" "/userService/createUser"))) = "debug=1" /\
  Request_Header
    (set_backend createUser
       (example_request "DELETE" "/userService/createUser"))
  = [("Content-Type", ["application/json"])] /\
  Request_Body
    (set_backend createUser
       (example_request "DELETE" "/userService/createUser")) = "{}".
Proof.
  apply (director_keeps_payload (mkAPIGateway example_registry)
           (example_request "DELETE" "/userService/createUser")
           ["request service name: userService, api name: createUser";
            "method: DELETE unsupported, should be: post"]).
  by vm_compute.
Defined.

(** One call that submits no nil entry keeps the API mappings of the
    registry free of nil entries. *)
Lemma run_call_no_nil_entries k c :
  submits_no_nil_entry k ->
  (forall s svc, store c !! s = Some svc -> no_nil_entries svc) ->
  forall s svc, store (run_call k c) !! s = Some svc -> no_nil_entries svc.
Proof.
  intros Hk Hc s svc. destruct k as [service|api]; simpl.
  - unfold CreateService. destruct service as [service|]; [|apply Hc].
    case_decide; [apply Hc|].
    destruct (store c !! Service_Name service); [apply Hc|].
    simpl. rewrite lookup_insert. case_decide; [|apply Hc].
    by intros [= <-].
  - unfold CreateAPI. destruct api as [api|]; [|apply Hc].
    case_decide; [apply Hc|]. simpl. case_decide; [apply Hc|].
    destruct (store c !! API_Service api) as [service|] eqn:Hlook;
      [|apply Hc].
    destruct (map_get (Service_APIs service) (API_Name api)); [apply Hc|].
    destruct (Service_APIs service) as [apis|] eqn:Hapis; simpl; [|apply Hc].
    rewrite lookup_insert. case_decide; [|apply Hc].
    intros [= <-] a. simpl. rewrite lookup_insert. case_decide; [done|].
    specialize (Hc _ _ Hlook a). by rewrite Hapis in Hc.
Qed.

(** X14: the director faults only on a nil entry, and the registry gets
    one only from a submitted service.  From a registry without nil
    entries, after any sequence of calls in which no [CreateService]
    submits a mapping with a nil entry, the director returns on every
    request. *)
Theorem director_returns_without_nil_entries ks c req :
  (forall s svc, store c !! s = Some svc -> no_nil_entries svc) ->
  Forall submits_no_nil_entry ks ->
  exists lines out,
    director (mkAPIGateway (run_calls ks c)) req = (lines, Returned out).
Proof.
  intros Hc Hks.
  assert (forall s svc, store (run_calls ks c) !! s = Some svc ->
                        no_nil_entries svc) as Hinv.
  { revert c Hc. induction Hks as [|k ks Hk _ IH]; intros c Hc; [done|].
    apply IH. by apply run_call_no_nil_entries. }
  unfold director. case_decide; [by eauto|].
  destruct (Split (URL_Path (Request_URL req)) "/")
    as [|pre [|s [|a [|]]]]; try (by eauto).
  unfold GetService. simpl.
  destruct (store (run_calls ks c) !! s) as [svc|] eqn:Hlook; [|by eauto].
  destruct (map_get (Service_APIs svc) a) as [[api|]|] eqn:Hget;
    [by eauto| |by eauto].
  by destruct (Hinv s svc Hlook a).
Qed.

Lemma director_returns_without_nil_entries_witness :
  exists lines out,
    director
      (mkAPIGateway
         (run_calls [CallCreateService (Some userService);
                     CallCreateAPI (Some createUser);
                     CallCreateService (Some bareService)] NewCacheDiscovery))
      (example_request "post" "/userService/createUser")
    = (lines, Returned out).
Proof.
  apply director_returns_without_nil_entries.
  - intros s svc Hs. simpl in Hs. by rewrite lookup_empty in Hs.
  - repeat constructor; intros a; by vm_compute.
Defined.



(** ** The administration handlers *)

Lemma gateway_eta gateway : mkAPIGateway (discovery gateway) = gateway.
Proof. by destruct gateway. Qed.

(** X16: the service handler answers [success] exactly when it stored the
    decoded service.  If the answer is [success], the body decoded to a
    service that [GetService] now returns under its name; if the answer is
    anything else, the gateway is as it was before the request. *)
Theorem APIGateway_CreateService_success Unmarshal gateway r :
  ((APIGateway_CreateService Unmarshal gateway r).1 = "success" ->
   exists service,
     Request_Method r = "POST" /\
     Unmarshal (Request_Body r) = inl service /\
     store (discovery gateway) !! Service_Name service = None /\
     GetService (Service_Name service)
       (discovery (APIGateway_CreateService Unmarshal gateway r).2)
     = inl service) /\
  ((APIGateway_CreateService Unmarshal gateway r).1 <> "success" ->
   (APIGateway_CreateService Unmarshal gateway r).2 = gateway).
Proof.
  unfold APIGateway_CreateService, MethodPost.
  case_decide as Hmethod; [by split|].
  destruct (Unmarshal (Request_Body r)) as [service|err]; [|by split].
  unfold CreateService. case_decide; [by split; [|rewrite gateway_eta]|].
  destruct (store (discovery gateway) !! Service_Name service) eqn:Hlook;
    [by split; [|rewrite gateway_eta]|].
  split; [|done]. intros _. exists service.
  split; [by destruct (decide (Request_Method r = "POST"))|].
  split; [done|]. split; [done|].
  unfold GetService. simpl. by rewrite lookup_insert_eq.
Qed.

Lemma APIGateway_CreateService_success_witness :
  (exists service,
     example_Unmarshal_Service "<userService, apis: {}>" = inl service /\
     GetService (Service_Name service)
       (discovery
          (APIGateway_CreateService example_Unmarshal_Service NewAPIGateWay
             (mkRequest "POST" (mkURL "" "" "/createService" "") []
                        "<userService, apis: {}>")).2)
     = inl service) /\
  (APIGateway_CreateService example_Unmarshal_Service NewAPIGateWay
     (mkRequest "POST" (mkURL "" "" "/createService" "") [] "{}")).2
  = NewAPIGateWay.
Proof.
  split.
  - destruct (APIGateway_CreateService_success example_Unmarshal_Service
                NewAPIGateWay
                (mkRequest "POST" (mkURL "" "" "/createService" "") []
                           "<userService, apis: {}>"))
      as [Hsuccess _].
    destruct Hsuccess as (service & _ & Hdecode & _ & Hget); [by vm_compute|].
    by exists service.
  - apply (APIGateway_CreateService_success example_Unmarshal_Service
             NewAPIGateWay
             (mkRequest "POST" (mkURL "" "" "/createService" "") [] "{}")).
    by vm_compute.
Defined.

(** X17: the API handler.  If it answers [success], the body decoded to an
    API that is now the entry under its service and name; unless it
    answers [success], the gateway is as it was before the request; and it
    ends in a fault, with nothing written, exactly when the method is
    POST, the body decodes, and [CreateAPI] faults on the decoded API. *)
Theorem APIGateway_CreateAPI_answers Unmarshal gateway r :
  ((APIGateway_CreateAPI Unmarshal gateway r).1 = Returned "success" ->
   exists api,
     Request_Method r = "POST" /\
     Unmarshal (Request_Body r) = inl api /\
     lookup_api (discovery (APIGateway_CreateAPI Unmarshal gateway r).2)
       (API_Service api) (API_Name api)
     = Some (Some api)) /\
  ((APIGateway_CreateAPI Unmarshal gateway r).1 <> Returned "success" ->
   (APIGateway_CreateAPI Unmarshal gateway r).2 = gateway) /\
  (forall p,
     (APIGateway_CreateAPI Unmarshal gateway r).1 = Panicked p <->
     Request_Method r = "POST" /\
     exists api, Unmarshal (Request_Body r) = inl api /\
                 (CreateAPI (Some api) (discovery gateway)).1 = Panicked p).
Proof.
  unfold APIGateway_CreateAPI, MethodPost.
  case_decide as Hmethod.
  { split; [done|]. split; [done|]. intros p. split; [done|]. by intros [? _]. }
  assert (Request_Method r = "POST") as Hpost
    by (by destruct (decide (Request_Method r = "POST"))).
  destruct (Unmarshal (Request_Body r)) as [api|err] eqn:Hdecode.
  2:{ split; [done|]. split; [done|]. intros p. split; [done|].
      by intros (_ & api & ? & _). }
  pose proof (CreateAPI_failed_unchanged (Some api) (discovery gateway))
    as Hfailed.
  assert (forall p,
            (exists api', @inl API string api = inl api' /\
               (CreateAPI (Some api') (discovery gateway)).1
               = @Panicked (option error) p) <->
            (CreateAPI (Some api) (discovery gateway)).1 = Panicked p)
    as Hfault.
  { intros p. split; [by intros (api' & [= <-] & Hp)|]. intros Hp.
    by exists api. }
  destruct (CreateAPI (Some api) (discovery gateway)) as [[[err|]|p'] c]
    eqn:Hcreate; cbn [fst snd] in *.
  - rewrite Hfailed by done. rewrite gateway_eta.
    split; [by intros [=]|]. split; [done|].
    intros p. split; [done|]. intros [_ Hp]. by apply Hfault in Hp.
  - split; [|split; [done|]].
    + intros _. exists api. split; [done|]. split; [done|].
      apply CreateAPI_success in Hcreate as (svc & apis & _ & _ & _ & ->).
      unfold lookup_api, GetService. simpl. rewrite lookup_insert_eq.
      simpl. by rewrite lookup_insert_eq.
    + intros p. split; [done|]. intros [_ Hp]. by apply Hfault in Hp.
  - rewrite Hfailed by done. rewrite gateway_eta.
    split; [done|]. split; [done|].
    intros p. split.
    + intros [= <-]. split; [done|]. by apply Hfault.
    + intros [_ Hp]. apply Hfault in Hp. by injection Hp as ->.
Qed.

Lemma APIGateway_CreateAPI_answers_witness :
  (APIGateway_CreateAPI example_Unmarshal_API (mkAPIGateway bare_registry)
     (mkRequest "POST" (mkURL "" "" "/createAPI" "") [] "<createUser>")).1
  = Panicked AssignmentToNilMap /\
  (APIGateway_CreateAPI example_Unmarshal_API (mkAPIGateway example_registry)
     (mkRequest "POST" (mkURL "" "" "/createAPI" "") [] "<createUser>")).2
  = mkAPIGateway example_registry.
Proof.
  split.
  - apply (APIGateway_CreateAPI_answers example_Unmarshal_API
             (mkAPIGateway bare_registry)
             (mkRequest "POST" (mkURL "" "" "/createAPI" "") []
                        "<createUser>")).
    split; [done|]. exists createUser. by vm_compute.
  - apply (APIGateway_CreateAPI_answers example_Unmarshal_API
             (mkAPIGateway example_registry)
             (mkRequest "POST" (mkURL "" "" "/createAPI" "") []
                        "<createUser>")).
    by vm_compute.
Defined.

(** X18: registration over the administration handlers, then routing.  A
    POST to the service handler whose body decodes to a service with a
    non-empty, unregistered name and a non-nil API mapping, followed by a
    POST to the API handler whose body decodes to an API of that service
    with a non-empty name that the mapping does not hold, are both
    answered [success]; when the two names contain no separator, the
    director then sends a request for [/{service}/{api}] to the backend
    of the decoded API. *)
Theorem registered_through_handlers_is_routable
    UnmarshalService UnmarshalAPI gateway r1 r2 service apis api req :
  Request_Method r1 = "POST" ->
  UnmarshalService (Request_Body r1) = inl service ->
  Service_Name service <> "" ->
  store (discovery gateway) !! Service_Name service = None ->
  Service_APIs service = Some apis ->
  Request_Method r2 = "POST" ->
  UnmarshalAPI (Request_Body r2) = inl api ->
  API_Name api <> "" ->
  API_Service api = Service_Name service ->
  apis !! API_Name api = None ->
  segment (API_Service api) -> segment (API_Name api) ->
  URL_Path (Request_URL req)
  = route_path "" (API_Service api) (API_Name api) ->
  exists g1 g2 lines out,
    APIGateway_CreateService UnmarshalService gateway r1 = ("success", g1) /\
    APIGateway_CreateAPI UnmarshalAPI g1 r2 = (Returned "success", g2) /\
    director g2 req = (lines, Returned out) /\
    rewritten_for api req out.
Proof.
  intros Hm1 Hd1 Hname Hfresh Hapis Hm2 Hd2 Hapi Howner Hnew Hs Ha Hpath.
  unfold APIGateway_CreateService, APIGateway_CreateAPI, MethodPost.
  rewrite decide_False by (intros Hne; exact (Hne Hm1)). rewrite Hd1.
  rewrite CreateService_fresh by done.
  eexists _, _, _, _. split; [done|].
  rewrite decide_False by (intros Hne; exact (Hne Hm2)). rewrite Hd2.
  unfold CreateAPI. rewrite decide_False by done. cbn [discovery store].
  rewrite decide_False by (by rewrite Howner).
  rewrite Howner, lookup_insert_eq, Hapis. cbn [map_get map_set].
  rewrite Hnew. split; [done|].
  rewrite Howner in Hpath, Hs. director_at_route Hpath.
  cbn [discovery store]. rewrite lookup_insert_eq. cbn [Service_APIs map_get].
  rewrite lookup_insert_eq. split; [done|]. apply set_backend_rewritten.
Qed.

Lemma registered_through_handlers_is_routable_witness :
  exists g1 g2 lines out,
    APIGateway_CreateService example_Unmarshal_Service NewAPIGateWay
      (mkRequest "POST" (mkURL "" "" "/createService" "") []
                 "<userService, apis: {}>")
    = ("success", g1) /\
    APIGateway_CreateAPI example_Unmarshal_API g1
      (mkRequest "POST" (mkURL "" "" "/createAPI" "") [] "<createUser>")
    = (Returned "success", g2) /\
    director g2 (example_request "post" "/userService/createUser")
    = (lines, Returned out) /\
    rewritten_for createUser
      (example_request "post" "/userService/createUser") out.
Proof.
  apply (registered_through_handlers_is_routable
           example_Unmarshal_Service example_Unmarshal_API NewAPIGateWay
           (mkRequest "POST" (mkURL "" "" "/createService" "") []
                      "<userService, apis: {}>")
           (mkRequest "POST" (mkURL "" "" "/createAPI" "") [] "<createUser>")
           userService ∅ createUser
           (example_request "post" "/userService/createUser"));
    by vm_compute.
Defined.

(** ** [Split] and [Join] *)

(** X19: what [strings.Split] on a one-byte separator gives the director.
    The pieces contain no separator, there is one more piece than there
    are separators in the string, and joining the pieces with the
    separator gives the string back; conversely, splitting the join of a
    non-empty list of separator-free pieces gives that list.  So the
    pieces of a path are determined by the path and determine it. *)
Theorem Split_Join_inverse sep :
  (forall s,
     Join (Split s sep) sep = s /\
     length (Split s sep) = S (count_byte sep s) /\
     Forall (fun piece => contains_byte sep piece = false) (Split s sep)) /\
  (forall pieces,
     pieces <> [] ->
     Forall (fun piece => contains_byte sep piece = false) pieces ->
     Split (Join pieces sep) sep = pieces).
Proof.
  split.
  - intros s. split; [apply Join_Split|].
    split; [apply Split_length | apply Split_pieces_free].
  - induction pieces as [|piece [|piece' pieces] IH]; [done| |].
    + intros _ Hfree. inversion_clear Hfree. by apply Split_no_sep.
    + intros _ Hfree. inversion_clear Hfree as [|?? Hpiece Hrest].
      change (Join (piece :: piece' :: pieces) sep)
        with (piece +:+ String sep (Join (piece' :: pieces) sep)).
      rewrite Split_app by done. by rewrite IH.
Qed.

Lemma Split_Join_inverse_witness :
  Split (Join [""; "userService"; "createUser"] "/") "/"
  = [""; "userService"; "createUser"].
Proof.
  apply (Split_Join_inverse "/"); [done|]. by repeat constructor.
Defined.
